(** * Flash layout of the standalone firmware: [legacy/memory.h]

    A shallow embedding of the header [memory.h]: the sector table of its
    leading comment, its layout constants, the build-time guard on
    [FLASH_APP_START], the address translation macro [FLASH_PTR] in its two
    build variants, and the two inline store primitives [flash_write32] and
    [flash_write8].

    Conventions.
    - C integers are [Z]; a conversion to [uint32_t] or [uint8_t] is written
      out as a reduction modulo [2^32] or [2^8].
    - A pointer is the [Z] value of the address it holds.  Pointer arithmetic
      is not reduced: leaving the pointed-to object is undefined in C, and
      the store primitives report it as a fault ([None]) when the byte they
      reach is not mapped.
    - Memory is a finite map from addresses to bytes; an address without an
      entry is not mapped. *)

From Stdlib Require Import ZArith Lia List String.
From stdpp Require Import gmap.

Local Open Scope Z_scope.

(** ** Layout constants *)

Module Layout.

(** [#define FLASH_ORIGIN 0x08000000] *)
Definition FLASH_ORIGIN : Z := 0x08000000.

(** [#define FLASH_TOTAL_SIZE (1024 * 1024)] *)
Definition FLASH_TOTAL_SIZE : Z := 1024 * 1024.

(** [#define FLASH_APP_START 0x08000000] *)
Definition FLASH_APP_START : Z := 0x08000000.

(** [#define FLASH_APP_LEN FLASH_TOTAL_SIZE] *)
Definition FLASH_APP_LEN : Z := FLASH_TOTAL_SIZE.

(** [#define FLASH_BOOT_START FLASH_ORIGIN] and [#define FLASH_BOOT_LEN 0x0000] *)
Definition FLASH_BOOT_START : Z := FLASH_ORIGIN.
Definition FLASH_BOOT_LEN : Z := 0x0000.

(** [#define FLASH_STORAGE_START FLASH_ORIGIN] and
    [#define FLASH_STORAGE_LEN 0x0000] *)
Definition FLASH_STORAGE_START : Z := FLASH_ORIGIN.
Definition FLASH_STORAGE_LEN : Z := 0x0000.

(** [#define FLASH_FWHEADER_START FLASH_APP_START] and
    [#define FLASH_FWHEADER_LEN 0x0000] *)
Definition FLASH_FWHEADER_START : Z := FLASH_APP_START.
Definition FLASH_FWHEADER_LEN : Z := 0x0000.

Definition FLASH_BOOT_SECTOR_FIRST : Z := 0.
Definition FLASH_BOOT_SECTOR_LAST : Z := 0.

Definition FLASH_STORAGE_SECTOR_FIRST : Z := 0.
Definition FLASH_STORAGE_SECTOR_LAST : Z := 0.

Definition FLASH_CODE_SECTOR_FIRST : Z := 0.
Definition FLASH_CODE_SECTOR_LAST : Z := 11.

(** An address range of the header: a [*_START] constant with its [*_LEN]. *)
Record region := Region { region_start : Z; region_len : Z }.

Definition app_region : region := Region FLASH_APP_START FLASH_APP_LEN.
Definition boot_region : region := Region FLASH_BOOT_START FLASH_BOOT_LEN.
Definition storage_region : region :=
  Region FLASH_STORAGE_START FLASH_STORAGE_LEN.
Definition fwheader_region : region :=
  Region FLASH_FWHEADER_START FLASH_FWHEADER_LEN.

(** The ranges the header gives both a start and a length for. *)
Definition declared_regions : list region :=
  [app_region; boot_region; storage_region; fwheader_region].

(** A region stays inside the flash when it starts at or after the origin and
    ends at or before the last flash byte. *)
Definition region_in_flash (r : region) : Prop :=
  FLASH_ORIGIN <= region_start r /\
  0 <= region_len r /\
  region_start r + region_len r <= FLASH_ORIGIN + FLASH_TOTAL_SIZE.

(** Does address [x] lie in region [r]? *)
Definition in_region (x : Z) (r : region) : bool :=
  (region_start r <=? x) && (x <? region_start r + region_len r).

(** An inclusive range of sector numbers: a [*_SECTOR_FIRST] constant with its
    [*_SECTOR_LAST]. *)
Record sector_range := SectorRange { sector_first : Z; sector_last : Z }.

Definition boot_sectors : sector_range :=
  SectorRange FLASH_BOOT_SECTOR_FIRST FLASH_BOOT_SECTOR_LAST.
Definition storage_sectors : sector_range :=
  SectorRange FLASH_STORAGE_SECTOR_FIRST FLASH_STORAGE_SECTOR_LAST.
Definition code_sectors : sector_range :=
  SectorRange FLASH_CODE_SECTOR_FIRST FLASH_CODE_SECTOR_LAST.

Definition in_sector_range (n : Z) (r : sector_range) : bool :=
  (sector_first r <=? n) && (n <=? sector_last r).

(** A flash address: one of the [FLASH_TOTAL_SIZE] bytes from [FLASH_ORIGIN]. *)
Definition is_flash_addr (x : Z) : Prop :=
  FLASH_ORIGIN <= x < FLASH_ORIGIN + FLASH_TOTAL_SIZE.

(** *** The sector table

    One row per line of the table in the header's leading comment: sector
    number, first address, last address (inclusive) and size in KiB. *)
Record sector := Sector {
  sector_num : Z;
  sector_lo : Z;
  sector_hi : Z;
  sector_kib : Z
}.

Definition sector_table : list sector :=
  [ Sector  0 0x08000000 0x08003FFF  16;
    Sector  1 0x08004000 0x08007FFF  16;
    Sector  2 0x08008000 0x0800BFFF  16;
    Sector  3 0x0800C000 0x0800FFFF  16;
    Sector  4 0x08010000 0x0801FFFF  64;
    Sector  5 0x08020000 0x0803FFFF 128;
    Sector  6 0x08040000 0x0805FFFF 128;
    Sector  7 0x08060000 0x0807FFFF 128;
    Sector  8 0x08080000 0x0809FFFF 128;
    Sector  9 0x080A0000 0x080BFFFF 128;
    Sector 10 0x080C0000 0x080DFFFF 128;
    Sector 11 0x080E0000 0x080FFFFF 128 ].

Definition KiB : Z := 1024.

(** Size of a sector in bytes, from the size column. *)
Definition sector_bytes (s : sector) : Z := sector_kib s * KiB.

(** Sum of the size column, in bytes. *)
Definition table_bytes (l : list sector) : Z :=
  fold_right Z.add 0 (List.map sector_bytes l).

(** Does address [x] lie in the range column of row [s]? *)
Definition in_sector (x : Z) (s : sector) : bool :=
  (sector_lo s <=? x) && (x <=? sector_hi s).

(** A row is consistent when its range column spans exactly the bytes of its
    size column. *)
Definition sector_consistent (s : sector) : bool :=
  sector_hi s - sector_lo s + 1 =? sector_bytes s.

(** [chained next n l]: the rows of [l] are numbered [n], [n + 1], ... and each
    starts at [next], the address after the end of the row before it. *)
Fixpoint chained (next n : Z) (l : list sector) : bool :=
  match l with
  | [] => true
  | s :: l' =>
      (sector_num s =? n) && (sector_lo s =? next) &&
      (sector_lo s <=? sector_hi s) &&
      chained (sector_hi s + 1) (n + 1) l'
  end.

(** The address after the last row of a chain starting at [next]. *)
Fixpoint chain_end (next : Z) (l : list sector) : Z :=
  match l with
  | [] => next
  | s :: l' => chain_end (sector_hi s + 1) l'
  end.

(** The sectors of [l] that contain address [x]. *)
Definition sectors_of (x : Z) (l : list sector) : list sector :=
  List.filter (in_sector x) l.

(** ** The build-time guard

    [#if FLASH_APP_START != 0x08000000] / [#error ...] / [#endif].

    The preprocessor replaces the macro name by the tokens of its body and
    only then reads the line as an expression, so the body is kept here as
    tokens, not as a number.  The model covers bodies made of integer
    constants, parentheses and the binary operators of [pp_binop]; the other
    operators of the C grammar are left out.

    Values are 64 bits wide, as [intmax_t] and [uintmax_t] are, and kept as
    their bit patterns in [0, 2^64): for the operators modelled the pattern of
    the result does not depend on whether an operand is taken as signed or
    unsigned.  Arithmetic wraps around modulo [2^64], and a constant too wide
    for 64 bits is cut to 64 bits, as gcc does with a warning. *)
Inductive build_result :=
  | BuildOk
  | BuildError (msg : string).

Inductive pp_binop :=
  | PMul | PAdd | PSub | PEq | PNe
  | PBitAnd | PBitXor | PBitOr | PLogAnd | PLogOr.

(** Binding strength in the C grammar; a larger number binds tighter:
    [*] over [+ -] over [== !=] over [&] over [^] over [|] over [&&] over
    [||]. *)
Definition pp_prec (o : pp_binop) : nat :=
  match o with
  | PMul => 7
  | PAdd | PSub => 6
  | PEq | PNe => 5
  | PBitAnd => 4
  | PBitXor => 3
  | PBitOr => 2
  | PLogAnd => 1
  | PLogOr => 0
  end%nat.

(** The levels of binding strength, tightest first. *)
Definition pp_levels : list nat := [7; 6; 5; 4; 3; 2; 1; 0]%nat.

Definition to_uintmax (z : Z) : Z := z mod 2 ^ 64.

Definition pp_apply (o : pp_binop) (x y : Z) : Z :=
  match o with
  | PMul => to_uintmax (x * y)
  | PAdd => to_uintmax (x + y)
  | PSub => to_uintmax (x - y)
  | PEq => if x =? y then 1 else 0
  | PNe => if x =? y then 0 else 1
  | PBitAnd => Z.land x y
  | PBitXor => Z.lxor x y
  | PBitOr => Z.lor x y
  | PLogAnd => if (x =? 0) || (y =? 0) then 0 else 1
  | PLogOr => if (x =? 0) && (y =? 0) then 0 else 1
  end.

(** An operand is an integer constant or a parenthesised token sequence; a
    token sequence is a first operand followed by operators, each with its
    right operand. *)
#[warnings="-register-all"] Inductive pp_operand :=
  | PLit (n : Z)
  | PParen (first : pp_operand) (rest : list (pp_binop * pp_operand)).

Definition pp_tokens : Type := pp_operand * list (pp_binop * pp_operand).

(** One pass over a sequence of values and operators: every operator of
    binding strength [p] is applied to its two neighbours, left to right; the
    other operators stay. *)
Fixpoint pp_collapse (p : nat) (acc : Z) (rest : list (pp_binop * Z))
  : Z * list (pp_binop * Z) :=
  match rest with
  | [] => (acc, [])
  | (o, v) :: rest' =>
      if Nat.eqb (pp_prec o) p
      then pp_collapse p (pp_apply o acc v) rest'
      else let (v', rest'') := pp_collapse p v rest' in
           (acc, (o, v') :: rest'')
  end.

(** The passes for all levels, tightest first. *)
Definition pp_passes (levels : list nat) (v : Z) (rest : list (pp_binop * Z))
  : Z * list (pp_binop * Z) :=
  fold_left (fun st p => pp_collapse p (fst st) (snd st)) levels (v, rest).

Definition pp_eval_flat (v : Z) (rest : list (pp_binop * Z)) : Z :=
  fst (pp_passes pp_levels v rest).

Fixpoint pp_eval_operand (e : pp_operand) : Z :=
  match e with
  | PLit n => to_uintmax n
  | PParen first rest =>
      pp_eval_flat (pp_eval_operand first)
        (List.map (fun ox => (fst ox, pp_eval_operand (snd ox))) rest)
  end.

(** The value of a token sequence read as an expression of its own. *)
Definition pp_eval (t : pp_tokens) : Z :=
  pp_eval_flat (pp_eval_operand (fst t))
    (List.map (fun ox => (fst ox, pp_eval_operand (snd ox))) (snd t)).


(** The guard for a given body of [FLASH_APP_START]: the controlling
    expression is the body's tokens followed by [!= 0x08000000]; the build
    stops at [#error] when it is not zero. *)
Definition app_start_guard (body : pp_tokens) : build_result :=
  if negb (pp_eval (fst body, snd body ++ [(PNe, PLit 0x08000000)]) =? 0)
  then BuildError "FLASH_APP_START MUST be 0x08000000 for standalone firmware"
  else BuildOk.


End Layout.

(** ** The machine: build configuration, memory and the store primitives *)

Module Machine.
Import Layout.

(** Byte order in which the target lays a multi-byte object out in memory.
    The header does not fix it: it is a property of the target the header is
    compiled for. *)
Inductive byte_order := LittleEndian | BigEndian.

(** What is fixed when the header is compiled: the [EMULATOR] flag tested by
    [#if EMULATOR], and the byte order of the target. *)
Record config := Config { EMULATOR : bool; target_order : byte_order }.

(** Conversions to the unsigned fixed-width types of [<stdint.h>]. *)
Definition to_uint32 (z : Z) : Z := z mod 2 ^ 32.
Definition to_uint8 (z : Z) : Z := z mod 2 ^ 8.

(** The run-time state the header touches: the global
    [extern uint8_t *emulator_flash_base] (read only when [EMULATOR] is set)
    and the byte-addressed memory. *)
Record machine := Machine {
  emulator_flash_base : Z;
  mem : gmap Z Z
}.

(** The surrounding system assigning a new value to the global
    [emulator_flash_base]. *)
Definition set_emulator_flash_base (b : Z) (st : machine) : machine :=
  Machine b (mem st).

(** [FLASH_PTR(x)], for [x] of type [uint32_t] as at both uses in the header.
    - [#if EMULATOR]: [(emulator_flash_base + ((x) - FLASH_ORIGIN))]; the
      subtraction is carried out in [uint32_t], the global is read where the
      macro is expanded.
    - [#else]: [((const uint8_t * )(x))], the address itself. *)
Definition FLASH_PTR (cfg : config) (st : machine) (x : Z) : Z :=
  if EMULATOR cfg
  then emulator_flash_base st + to_uint32 (x - FLASH_ORIGIN)
  else x.

(** *** Memory accesses *)

(** Are the [n] bytes from [p] mapped? *)
Fixpoint mapped (m : gmap Z Z) (p : Z) (n : nat) : bool :=
  match n with
  | O => true
  | S n' => bool_decide (is_Some (m !! p)) && mapped m (p + 1) n'
  end.

(** Store of one byte; a fault when the byte is not mapped. *)
Definition store8 (m : gmap Z Z) (p v : Z) : option (gmap Z Z) :=
  match m !! p with
  | Some _ => Some (<[p := to_uint8 v]> m)
  | None => None
  end.

(** Store of consecutive bytes, lowest address first. *)
Fixpoint store_bytes (m : gmap Z Z) (p : Z) (bs : list Z) : option (gmap Z Z) :=
  match bs with
  | [] => Some m
  | b :: bs' => m' ← store8 m p b; store_bytes m' (p + 1) bs'
  end.

(** Load of [n] consecutive bytes, lowest address first. *)
Fixpoint load_bytes (m : gmap Z Z) (p : Z) (n : nat) : option (list Z) :=
  match n with
  | O => Some []
  | S n' => b ← m !! p; bs ← load_bytes m (p + 1) n'; Some (b :: bs)
  end.

(** The [n] low-order bytes of [w], least significant first. *)
Fixpoint le_split (n : nat) (w : Z) : list Z :=
  match n with
  | O => []
  | S n' => Z.land w 0xFF :: le_split n' (Z.shiftr w 8)
  end.

(** The number whose bytes, least significant first, are [bs]. *)
Fixpoint le_combine (bs : list Z) : Z :=
  match bs with
  | [] => 0
  | b :: bs' => b + Z.shiftl (le_combine bs') 8
  end.

(** The object representation of a 32-bit word on the target. *)
Definition word_bytes (o : byte_order) (w : Z) : list Z :=
  match o with
  | LittleEndian => le_split 4 w
  | BigEndian => rev (le_split 4 w)
  end.

Definition bytes_word (o : byte_order) (bs : list Z) : Z :=
  match o with
  | LittleEndian => le_combine bs
  | BigEndian => le_combine (rev bs)
  end.

(** [*(volatile uint32_t * )p = w] *)
Definition store32 (o : byte_order) (m : gmap Z Z) (p w : Z)
  : option (gmap Z Z) :=
  store_bytes m p (word_bytes o (to_uint32 w)).

(** [*(volatile uint32_t * )p] *)
Definition load32 (o : byte_order) (m : gmap Z Z) (p : Z) : option Z :=
  bytes_word o <$> load_bytes m p 4.

(** *** The two inline functions of the header

    The arguments arrive converted to the parameter types.  [volatile] makes
    the store an observable effect that the compiler neither drops nor
    reorders; in this model every store is carried out, in program order. *)

(** [static inline void flash_write32(uint32_t addr, uint32_t word)]:
    [*(volatile uint32_t * )FLASH_PTR(addr) = word;] *)
Definition flash_write32 (cfg : config) (addr word : Z) (st : machine)
  : option machine :=
  let addr := to_uint32 addr in
  let word := to_uint32 word in
  m' ← store32 (target_order cfg) (mem st) (FLASH_PTR cfg st addr) word;
  Some (Machine (emulator_flash_base st) m').

(** [static inline void flash_write8(uint32_t addr, uint8_t byte)]:
    [*(volatile uint8_t * )FLASH_PTR(addr) = byte;] *)
Definition flash_write8 (cfg : config) (addr byte : Z) (st : machine)
  : option machine :=
  let addr := to_uint32 addr in
  let byte := to_uint8 byte in
  m' ← store8 (mem st) (FLASH_PTR cfg st addr) byte;
  Some (Machine (emulator_flash_base st) m').

(** *** Reading back

    The header has no read function; a caller reads flash through the same
    macro, as [*(const uint8_t * )FLASH_PTR(addr)] and
    [*(const uint32_t * )FLASH_PTR(addr)]. *)
Definition flash_read8 (cfg : config) (addr : Z) (st : machine) : option Z :=
  mem st !! FLASH_PTR cfg st (to_uint32 addr).

Definition flash_read32 (cfg : config) (addr : Z) (st : machine) : option Z :=
  load32 (target_order cfg) (mem st) (FLASH_PTR cfg st (to_uint32 addr)).

(** Every flash byte is backed by a mapped byte of memory: the emulated
    buffer is allocated at [emulator_flash_base], or the flash is mapped at
    its own addresses. *)
Definition flash_backed (cfg : config) (st : machine) : Prop :=
  forall x, is_flash_addr x -> is_Some (mem st !! FLASH_PTR cfg st x).

(** *** Two small machines

    An emulated buffer based at [0x7000] of which the five bytes at offsets
    [0x10] to [0x14] are mapped, and a hardware flash of which the five bytes
    from [0x08000010] are mapped. *)
Definition emulated_example : machine :=
  Machine 0x7000
    (list_to_map [(0x7010, 0xAA); (0x7011, 0xAA); (0x7012, 0xAA);
                  (0x7013, 0xAA); (0x7014, 0x55)]).

Definition hardware_example : machine :=
  Machine 0
    (list_to_map [(0x08000010, 0xFF); (0x08000011, 0xFF); (0x08000012, 0xFF);
                  (0x08000013, 0xFF); (0x08000014, 0xFF)]).


(** *** Comparing two machines

    Two machines, possibly of different builds or with the emulated buffer at
    different places, show the same flash when every flash address reads the
    same through [FLASH_PTR] in both (mapped in both with the same byte, or
    mapped in neither). *)
Definition same_flash (cfg1 : config) (st1 : machine)
    (cfg2 : config) (st2 : machine) : Prop :=
  forall x, is_flash_addr x -> flash_read8 cfg1 x st1 = flash_read8 cfg2 x st2.

(** Two runs of a store agree: both fault, or both return and the machines
    they return show the same flash. *)
Definition same_outcome (cfg1 cfg2 : config) (r1 r2 : option machine) : Prop :=
  match r1, r2 with
  | Some st1, Some st2 => same_flash cfg1 st1 cfg2 st2
  | None, None => True
  | _, _ => False
  end.

(** The same four flash bytes from [0x08000010], once in an emulated buffer
    based at [0x7000] and once at their own addresses. *)
Definition emulated_word : machine :=
  Machine 0x7000
    (<[0x7010 := 0x11]> (<[0x7011 := 0x22]>
       (<[0x7012 := 0x33]> (<[0x7013 := 0x44]> ∅)))).

Definition hardware_word : machine :=
  Machine 0
    (<[0x08000010 := 0x11]> (<[0x08000011 := 0x22]>
       (<[0x08000012 := 0x33]> (<[0x08000013 := 0x44]> ∅)))).

End Machine.

(** ** Facts about the layout *)

Module LayoutFacts.
Import Layout.

Lemma in_sector_spec x s :
  in_sector x s = true <-> sector_lo s <= x <= sector_hi s.
Proof. unfold in_sector. rewrite andb_true_iff, !Z.leb_le. tauto. Qed.

Lemma in_sector_false x s :
  in_sector x s = false <-> x < sector_lo s \/ sector_hi s < x.
Proof. unfold in_sector. rewrite andb_false_iff, !Z.leb_gt. tauto. Qed.

(** What [chained] checks at the head of a table. *)
Lemma chained_cons next n s l :
  chained next n (s :: l) = true <->
  sector_num s = n /\ sector_lo s = next /\ sector_lo s <= sector_hi s /\
  chained (sector_hi s + 1) (n + 1) l = true.
Proof.
  simpl. rewrite !andb_true_iff, !Z.eqb_eq, Z.leb_le. tauto.
Qed.

(** A chain never ends before it starts. *)
Lemma chain_end_ge l : forall next n,
  chained next n l = true -> next <= chain_end next l.
Proof.
  induction l as [|s l IH]; intros next n H; [simpl; lia|].
  apply chained_cons in H as (_ & Hlo & Hle & Hl).
  apply IH in Hl. simpl. lia.
Qed.

(** No row of a chain contains an address below the start of the chain. *)
Lemma sectors_of_below l : forall next n x,
  chained next n l = true -> x < next -> sectors_of x l = [].
Proof.
  induction l as [|s l IH]; intros next n x H Hx; [reflexivity|].
  apply chained_cons in H as (_ & Hlo & Hle & Hl).
  unfold sectors_of in *. simpl.
  replace (in_sector x s) with false
    by (symmetry; apply in_sector_false; lia).
  apply (IH _ _ _ Hl). lia.
Qed.

(** No row of a chain contains an address at or after the end of the chain. *)
Lemma sectors_of_above l : forall next n x,
  chained next n l = true -> chain_end next l <= x -> sectors_of x l = [].
Proof.
  induction l as [|s l IH]; intros next n x H Hx; [reflexivity|].
  apply chained_cons in H as (_ & Hlo & Hle & Hl).
  pose proof (chain_end_ge _ _ _ Hl) as Hge.
  unfold sectors_of in *. simpl in *.
  replace (in_sector x s) with false
    by (symmetry; apply in_sector_false; lia).
  apply (IH _ _ _ Hl). lia.
Qed.

(** In a chain, every address from its start up to its end lies in exactly one
    row: the rows leave no gap and do not overlap. *)
Lemma sectors_of_chain l : forall next n x,
  chained next n l = true -> next <= x < chain_end next l ->
  exists s, sectors_of x l = [s].
Proof.
  induction l as [|s l IH]; intros next n x H Hx; [simpl in Hx; lia|].
  apply chained_cons in H as (_ & Hlo & Hle & Hl).
  unfold sectors_of in *. simpl in *.
  destruct (Z_le_gt_dec x (sector_hi s)) as [Hin|Hout].
  - replace (in_sector x s) with true
      by (symmetry; apply in_sector_spec; lia).
    exists s. f_equal. apply (sectors_of_below _ _ _ _ Hl). lia.
  - replace (in_sector x s) with false
      by (symmetry; apply in_sector_false; lia).
    apply (IH _ _ _ Hl). lia.
Qed.

(** In a chain, consecutive rows are adjacent. *)
Lemma chained_adjacent l : forall next n (i : nat) s t,
  chained next n l = true ->
  l !! i = Some s -> l !! S i = Some t -> sector_lo t = sector_hi s + 1.
Proof.
  induction l as [|a l IH]; intros next n i s t H Hs Ht; [discriminate|].
  apply chained_cons in H as (_ & _ & _ & Hl).
  destruct i as [|i]; simpl in Hs, Ht.
  - injection Hs as ->.
    destruct l as [|b l]; [discriminate|]. simpl in Ht. injection Ht as ->.
    apply chained_cons in Hl as (_ & Hlo & _). exact Hlo.
  - exact (IH _ _ _ _ _ Hl Hs Ht).
Qed.

Lemma sector_table_chained : chained FLASH_ORIGIN 0 sector_table = true.
Proof. reflexivity. Qed.

Lemma sector_table_end :
  chain_end FLASH_ORIGIN sector_table = FLASH_ORIGIN + FLASH_TOTAL_SIZE.
Proof. reflexivity. Qed.

(** C1: the sector table has exactly 12 rows, of 16, 16, 16, 16, 64 and seven
    times 128 KiB; every row's address range spans exactly its size; the sizes
    add up to [FLASH_TOTAL_SIZE], which is 1 MiB; the first row starts at
    [FLASH_ORIGIN], each further row starts one byte after the end of the row
    before it, and the last row ends at [0x080FFFFF]; hence an address lies in
    exactly one row when it is a flash address, and in none otherwise. *)
Theorem sector_table_layout :
  length sector_table = 12%nat /\
  List.map sector_kib sector_table =
    [16; 16; 16; 16; 64; 128; 128; 128; 128; 128; 128; 128] /\
  List.map sector_num sector_table = [0; 1; 2; 3; 4; 5; 6; 7; 8; 9; 10; 11] /\
  forallb sector_consistent sector_table = true /\
  table_bytes sector_table = FLASH_TOTAL_SIZE /\
  FLASH_TOTAL_SIZE = 1048576 /\
  sector_lo <$> head sector_table = Some FLASH_ORIGIN /\
  FLASH_ORIGIN = 0x08000000 /\
  (forall (i : nat) s t,
      sector_table !! i = Some s -> sector_table !! S i = Some t ->
      sector_lo t = sector_hi s + 1) /\
  sector_hi <$> last sector_table = Some 0x080FFFFF /\
  (forall x, is_flash_addr x -> exists s, sectors_of x sector_table = [s]) /\
  (forall x, ~ is_flash_addr x -> sectors_of x sector_table = []).
Proof.
  split_and!; try reflexivity.
  - intros i s t. apply (chained_adjacent _ _ _ _ _ _ sector_table_chained).
  - intros x Hx.
    apply (sectors_of_chain _ _ _ _ sector_table_chained).
    rewrite sector_table_end. exact Hx.
  - intros x Hx. unfold is_flash_addr in Hx.
    destruct (Z_lt_ge_dec x FLASH_ORIGIN) as [Hlo|Hhi].
    + exact (sectors_of_below _ _ _ _ sector_table_chained Hlo).
    + apply (sectors_of_above _ _ _ _ sector_table_chained).
      rewrite sector_table_end. lia.
Qed.

(** The sector holding an address in the middle of the flash, and the
    adjacency of sectors 4 and 5, read off the table through
    [sector_table_layout]. *)
Lemma sector_table_layout_witness :
  (exists s, sectors_of 0x08012345 sector_table = [s]) /\
  sectors_of 0x08100000 sector_table = [] /\
  sector_lo (Sector 5 0x08020000 0x0803FFFF 128) =
    sector_hi (Sector 4 0x08010000 0x0801FFFF 64) + 1.
Proof.
  destruct sector_table_layout
    as (_ & _ & _ & _ & _ & _ & _ & _ & Hadj & _ & Hin & Hout).
  split; [|split].
  - apply Hin. unfold is_flash_addr, FLASH_ORIGIN, FLASH_TOTAL_SIZE. lia.
  - apply Hout. unfold is_flash_addr, FLASH_ORIGIN, FLASH_TOTAL_SIZE. lia.
  - apply (Hadj 4%nat); reflexivity.
Defined.

Lemma in_region_spec x r :
  in_region x r = true <->
  region_start r <= x < region_start r + region_len r.
Proof. unfold in_region. rewrite andb_true_iff, Z.leb_le, Z.ltb_lt. tauto. Qed.

Lemma in_sector_range_spec n r :
  in_sector_range n r = true <-> sector_first r <= n <= sector_last r.
Proof. unfold in_sector_range. rewrite andb_true_iff, !Z.leb_le. tauto. Qed.

(** *** The guard *)







(** The guard on some bodies: the constant of the header; that constant with
    a 16 KiB offset, added or or-ed; bodies whose loose top-level operator
    takes [!= 0x08000000] as its right operand; a constant too wide for 64
    bits. *)
Example app_start_guard_examples :
  let ok := BuildOk in
  let err :=
    BuildError "FLASH_APP_START MUST be 0x08000000 for standalone firmware" in
  app_start_guard (PLit 0x08000000, []) = ok /\
  app_start_guard (PLit 0x08004000, []) = err /\
  app_start_guard (PLit 0x08000000, [(PAdd, PLit 0x4000)]) = err /\
  app_start_guard (PLit 0x08004000, [(PSub, PLit 0x4000)]) = ok /\
  app_start_guard (PLit 2, [(PMul, PLit 0x04000000)]) = ok /\
  app_start_guard (PLit 0x08000000, [(PBitOr, PLit 0x4000)]) = err /\
  app_start_guard (PLit 0x08000000, [(PBitOr, PLit 0)]) = err /\
  app_start_guard (PLit 0, [(PBitOr, PLit 0x08000000)]) = ok /\
  app_start_guard (PLit 0x08004000, [(PBitAnd, PLit 0x0FFFFFFE)]) = ok /\
  app_start_guard
    (PParen (PLit 0x08004000) [(PBitAnd, PLit 0x0FFFFFFE)], []) = err /\
  app_start_guard (PLit 0x08000000, [(PEq, PLit 0x08000000)]) = err /\
  app_start_guard (PLit 3, [(PBitAnd, PLit 2); (PEq, PLit 2)]) = err /\
  app_start_guard
    (PLit 0x08000000, [(PAdd, PLit 0); (PBitAnd, PLit 0)]) = ok /\
  app_start_guard (PLit 0, [(PLogAnd, PLit 5)]) = ok /\
  app_start_guard (PLit 0, [(PLogOr, PLit 0)]) = err /\
  app_start_guard
    (PLit 0xFFFFFFFFFFFFFFFF, [(PAdd, PLit 0x08000001)]) = ok /\
  app_start_guard (PLit 0x10000000008000000, []) = ok.
Proof. vm_compute. repeat split. Qed.




(** C7: the legacy boot region and the legacy storage region both start at
    [FLASH_ORIGIN] and both have length zero, so neither contains any
    address. *)
Theorem legacy_regions_empty :
  FLASH_BOOT_START = FLASH_ORIGIN /\
  FLASH_STORAGE_START = FLASH_ORIGIN /\
  FLASH_BOOT_LEN = 0 /\
  FLASH_STORAGE_LEN = 0 /\
  boot_region = Region FLASH_ORIGIN 0 /\
  storage_region = Region FLASH_ORIGIN 0 /\
  (forall x, in_region x boot_region = false) /\
  (forall x, in_region x storage_region = false).
Proof.
  split_and!; try reflexivity.
  - intros x. apply not_true_iff_false. rewrite in_region_spec. simpl.
    unfold FLASH_BOOT_START, FLASH_BOOT_LEN. lia.
  - intros x. apply not_true_iff_false. rewrite in_region_spec. simpl.
    unfold FLASH_STORAGE_START, FLASH_STORAGE_LEN. lia.
Qed.

(** C8: the firmware region starts at [FLASH_ORIGIN] and has the full length
    [FLASH_TOTAL_SIZE] of 1 MiB, so it holds exactly the flash addresses; the
    code sector range is 0 to 11, which are the sector numbers of the table;
    the firmware, boot and storage regions all satisfy
    [start + length <= FLASH_ORIGIN + FLASH_TOTAL_SIZE], and so does the
    firmware-header region, the fourth range the header declares. *)
Theorem app_region_whole_flash :
  FLASH_APP_START = FLASH_ORIGIN /\
  FLASH_APP_LEN = FLASH_TOTAL_SIZE /\
  FLASH_APP_LEN = 1048576 /\
  app_region = Region FLASH_ORIGIN FLASH_TOTAL_SIZE /\
  (forall x, in_region x app_region = true <-> is_flash_addr x) /\
  FLASH_CODE_SECTOR_FIRST = 0 /\
  FLASH_CODE_SECTOR_LAST = 11 /\
  code_sectors = SectorRange 0 11 /\
  forallb (fun s => in_sector_range (sector_num s) code_sectors) sector_table
    = true /\
  Forall region_in_flash [app_region; boot_region; storage_region] /\
  Forall region_in_flash declared_regions.
Proof.
  split_and!; try reflexivity.
  - intros x. rewrite in_region_spec. reflexivity.
  - repeat constructor; vm_compute; congruence.
  - repeat constructor; vm_compute; congruence.
Qed.

(** The first and the last flash byte lie in the firmware region; the byte
    after the flash does not. *)
Lemma app_region_whole_flash_witness :
  in_region 0x08000000 app_region = true /\
  in_region 0x080FFFFF app_region = true /\
  is_flash_addr 0x080FFFFF.
Proof.
  destruct app_region_whole_flash as (_ & _ & _ & _ & Hin & _).
  assert (Hlast : is_flash_addr 0x080FFFFF)
    by (unfold is_flash_addr, FLASH_ORIGIN, FLASH_TOTAL_SIZE; lia).
  split; [|split].
  - apply Hin. unfold is_flash_addr, FLASH_ORIGIN, FLASH_TOTAL_SIZE. lia.
  - apply Hin, Hlast.
  - apply Hin, Hin, Hlast.
Defined.

(** C10: the firmware-header region starts at [FLASH_APP_START] and has length
    zero; the boot and the storage sector ranges are both 0 to 0, so the only
    sector either of them holds is sector 0, and that sector also lies in the
    code sector range 0 to 11. *)
Theorem fwheader_and_legacy_sectors (n : Z) :
  FLASH_FWHEADER_START = FLASH_APP_START /\
  FLASH_FWHEADER_LEN = 0 /\
  fwheader_region = Region FLASH_APP_START 0 /\
  boot_sectors = SectorRange 0 0 /\
  storage_sectors = SectorRange 0 0 /\
  code_sectors = SectorRange 0 11 /\
  in_sector_range 0 boot_sectors = true /\
  in_sector_range 0 storage_sectors = true /\
  in_sector_range 0 code_sectors = true /\
  (in_sector_range n boot_sectors = true -> n = 0) /\
  (in_sector_range n storage_sectors = true -> n = 0) /\
  (in_sector_range n boot_sectors = true ->
   in_sector_range n storage_sectors = true /\
   in_sector_range n code_sectors = true).
Proof.
  split_and!; try reflexivity.
  - rewrite in_sector_range_spec. simpl.
    unfold FLASH_BOOT_SECTOR_FIRST, FLASH_BOOT_SECTOR_LAST. lia.
  - rewrite in_sector_range_spec. simpl.
    unfold FLASH_STORAGE_SECTOR_FIRST, FLASH_STORAGE_SECTOR_LAST. lia.
  - rewrite !in_sector_range_spec. simpl.
    unfold FLASH_BOOT_SECTOR_FIRST, FLASH_BOOT_SECTOR_LAST,
      FLASH_STORAGE_SECTOR_FIRST, FLASH_STORAGE_SECTOR_LAST,
      FLASH_CODE_SECTOR_FIRST, FLASH_CODE_SECTOR_LAST. lia.
Qed.

(** Sector 0 is in the boot range, hence also in the storage and in the code
    range. *)
Lemma fwheader_and_legacy_sectors_witness :
  in_sector_range 0 boot_sectors = true /\
  in_sector_range 0 storage_sectors = true /\
  in_sector_range 0 code_sectors = true.
Proof.
  destruct (fwheader_and_legacy_sectors 0)
    as (_ & _ & _ & _ & _ & _ & Hboot & _ & _ & _ & _ & Hall).
  split; [exact Hboot | exact (Hall Hboot)].
Defined.

End LayoutFacts.

(** ** Facts about address translation *)

Module TranslationFacts.
Import Layout Machine.

Lemma to_uint32_range z : 0 <= to_uint32 z < 2 ^ 32.
Proof. unfold to_uint32. apply Z.mod_pos_bound. lia. Qed.

Lemma to_uint32_small z : 0 <= z < 2 ^ 32 -> to_uint32 z = z.
Proof. unfold to_uint32. apply Z.mod_small. Qed.

Lemma to_uint8_small z : 0 <= z < 2 ^ 8 -> to_uint8 z = z.
Proof. unfold to_uint8. apply Z.mod_small. Qed.

Lemma to_uint8_range z : 0 <= to_uint8 z < 2 ^ 8.
Proof. unfold to_uint8. apply Z.mod_pos_bound. lia. Qed.

Lemma to_uint32_idem z : to_uint32 (to_uint32 z) = to_uint32 z.
Proof. apply to_uint32_small, to_uint32_range. Qed.

Lemma to_uint8_idem z : to_uint8 (to_uint8 z) = to_uint8 z.
Proof. apply to_uint8_small, to_uint8_range. Qed.

Lemma flash_addr_uint32 x : is_flash_addr x -> 0 <= x < 2 ^ 32.
Proof. unfold is_flash_addr, FLASH_ORIGIN, FLASH_TOTAL_SIZE. lia. Qed.

(** The unsigned subtraction [x - FLASH_ORIGIN]: exact from the origin
    upwards, wrapped around below it. *)
Lemma offset_cases x :
  0 <= x < 2 ^ 32 ->
  (FLASH_ORIGIN <= x /\ to_uint32 (x - FLASH_ORIGIN) = x - FLASH_ORIGIN) \/
  (x < FLASH_ORIGIN /\
   to_uint32 (x - FLASH_ORIGIN) = x - FLASH_ORIGIN + 2 ^ 32).
Proof.
  intros Hx. unfold to_uint32, FLASH_ORIGIN.
  destruct (Z_le_gt_dec 0x08000000 x) as [Hge|Hlt]; [left | right].
  - split; [exact Hge|]. apply Z.mod_small. lia.
  - split; [lia|].
    rewrite <- (Z.mod_add _ 1) by lia. apply Z.mod_small. lia.
Qed.

Lemma offset_flash x :
  is_flash_addr x -> to_uint32 (x - FLASH_ORIGIN) = x - FLASH_ORIGIN.
Proof.
  intros Hx. pose proof (flash_addr_uint32 _ Hx) as Hr.
  destruct (offset_cases x Hr) as [[_ H]|[Hlt _]]; [exact H|].
  unfold is_flash_addr in Hx. lia.
Qed.

(** In the emulated build a flash address is translated to the byte of the
    buffer at its offset from the origin. *)
Lemma FLASH_PTR_emulator o st x :
  is_flash_addr x ->
  FLASH_PTR (Config true o) st x =
  emulator_flash_base st + (x - FLASH_ORIGIN).
Proof. intros Hx. unfold FLASH_PTR. simpl. now rewrite offset_flash. Qed.

Lemma FLASH_PTR_hardware o st x : FLASH_PTR (Config false o) st x = x.
Proof. reflexivity. Qed.

(** Translation of a flash address moves along with the address. *)
Lemma FLASH_PTR_add cfg st a i :
  is_flash_addr a -> is_flash_addr (a + i) ->
  FLASH_PTR cfg st (a + i) = FLASH_PTR cfg st a + i.
Proof.
  intros Ha Hai. unfold FLASH_PTR. destruct (EMULATOR cfg); [|reflexivity].
  rewrite !offset_flash by assumption. lia.
Qed.

(** Distinct [uint32_t] addresses are translated to distinct pointers. *)
Lemma FLASH_PTR_inj cfg st x y :
  0 <= x < 2 ^ 32 -> 0 <= y < 2 ^ 32 ->
  FLASH_PTR cfg st x = FLASH_PTR cfg st y -> x = y.
Proof.
  intros Hx Hy. unfold FLASH_PTR. destruct (EMULATOR cfg); [|tauto].
  destruct (offset_cases x Hx) as [[? ->]|[? ->]],
           (offset_cases y Hy) as [[? ->]|[? ->]];
    unfold FLASH_ORIGIN in *; lia.
Qed.

(** A pointer translated from outside a window of flash addresses lies
    outside the translated window. *)
Lemma FLASH_PTR_outside cfg st a x n :
  is_flash_addr a -> 0 <= n -> a + n <= FLASH_ORIGIN + FLASH_TOTAL_SIZE ->
  0 <= x < 2 ^ 32 -> x < a \/ a + n <= x ->
  FLASH_PTR cfg st x < FLASH_PTR cfg st a \/
  FLASH_PTR cfg st a + n <= FLASH_PTR cfg st x.
Proof.
  intros Ha Hn Hend Hx Hout. unfold FLASH_PTR.
  destruct (EMULATOR cfg); [|exact Hout].
  rewrite (offset_flash a Ha).
  unfold is_flash_addr in Ha.
  destruct (offset_cases x Hx) as [[? ->]|[? ->]];
    unfold FLASH_ORIGIN, FLASH_TOTAL_SIZE in *; lia.
Qed.

(** C3: in the emulated build [FLASH_PTR(x)] is computed from the value the
    global [emulator_flash_base] holds in the state the macro is evaluated
    in: for a flash address [x] it is that value plus [x - FLASH_ORIGIN];
    after the global has been assigned a new value [b'] the same expression
    yields [b' + (x - FLASH_ORIGIN)], so the two results differ by exactly
    [b'] minus the earlier value. *)
Theorem FLASH_PTR_call_time (o : byte_order) (st : machine) (x b' : Z) :
  is_flash_addr x ->
  let emu := Config true o in
  let st' := set_emulator_flash_base b' st in
  FLASH_PTR emu st x = emulator_flash_base st + (x - FLASH_ORIGIN) /\
  FLASH_PTR emu st' x = b' + (x - FLASH_ORIGIN) /\
  FLASH_PTR emu st' x - FLASH_PTR emu st x = b' - emulator_flash_base st.
Proof.
  intros Hx emu st'. subst emu st'.
  rewrite !FLASH_PTR_emulator by assumption. simpl. lia.
Qed.

(** The buffer moves from [0x7f0000000000] to [0x7f0000200000] between two
    translations of the flash address [0x08004010]. *)
Lemma FLASH_PTR_call_time_witness :
  let emu := Config true LittleEndian in
  let st := Machine 0x7f0000000000 ∅ in
  let st' := set_emulator_flash_base 0x7f0000200000 st in
  FLASH_PTR emu st 0x08004010 = 0x7f0000004010 /\
  FLASH_PTR emu st' 0x08004010 = 0x7f0000204010 /\
  FLASH_PTR emu st' 0x08004010 - FLASH_PTR emu st 0x08004010 = 0x200000.
Proof.
  apply (FLASH_PTR_call_time LittleEndian
           (Machine 0x7f0000000000 ∅) 0x08004010 0x7f0000200000).
  unfold is_flash_addr, FLASH_ORIGIN, FLASH_TOTAL_SIZE. lia.
Defined.

(** C4: [FLASH_PTR(FLASH_ORIGIN)] is, in the emulated build, the base of the
    emulated buffer, [emulator_flash_base + 0]; in the hardware build it is
    the address [0x08000000] itself. *)
Theorem FLASH_PTR_origin (o : byte_order) (st : machine) :
  FLASH_PTR (Config true o) st FLASH_ORIGIN = emulator_flash_base st + 0 /\
  FLASH_PTR (Config true o) st FLASH_ORIGIN = emulator_flash_base st /\
  FLASH_PTR (Config false o) st FLASH_ORIGIN = 0x08000000.
Proof.
  unfold FLASH_PTR. simpl.
  replace (FLASH_ORIGIN - FLASH_ORIGIN) with 0 by lia.
  unfold to_uint32. rewrite Z.mod_0_l by lia.
  split_and!; [reflexivity | lia | reflexivity].
Qed.

End TranslationFacts.

(** ** Facts about the memory accesses *)

Module MemoryFacts.
Import Layout Machine.

Lemma mapped_S (m : gmap Z Z) p n :
  mapped m p (S n) = true <-> is_Some (m !! p) /\ mapped m (p + 1) n = true.
Proof. simpl. rewrite andb_true_iff, bool_decide_eq_true. tauto. Qed.

(** [mapped m p n] holds exactly when each of the [n] bytes has an entry. *)
Lemma mapped_spec (m : gmap Z Z) n : forall p,
  mapped m p n = true <->
  forall i, 0 <= i < Z.of_nat n -> is_Some (m !! (p + i)).
Proof.
  induction n as [|n IH]; intros p.
  - simpl. split; [intros _ i Hi; lia | reflexivity].
  - rewrite mapped_S, IH. split.
    + intros [H0 Hrest] i Hi.
      destruct (Z.eq_dec i 0) as [->|Hne].
      * now rewrite Z.add_0_r.
      * replace (p + i) with (p + 1 + (i - 1)) by lia. apply Hrest. lia.
    + intros H. split.
      * rewrite <- (Z.add_0_r p). apply H. lia.
      * intros i Hi. replace (p + 1 + i) with (p + (1 + i)) by lia.
        apply H. lia.
Qed.

Lemma store8_Some (m : gmap Z Z) p v :
  is_Some (m !! p) -> store8 m p v = Some (<[p := to_uint8 v]> m).
Proof. intros [b Hb]. unfold store8. now rewrite Hb. Qed.

Lemma store8_inv (m m' : gmap Z Z) p v :
  store8 m p v = Some m' ->
  is_Some (m !! p) /\ m' = <[p := to_uint8 v]> m.
Proof.
  unfold store8. destruct (m !! p) as [b|] eqn:Hb; [|discriminate].
  intros [= <-]. eauto.
Qed.

(** A store does not map or unmap anything. *)
Lemma store8_is_Some (m m' : gmap Z Z) p v q :
  store8 m p v = Some m' -> is_Some (m' !! q) <-> is_Some (m !! q).
Proof.
  intros H. apply store8_inv in H as [Hp ->].
  destruct (Z.eq_dec p q) as [<-|Hne].
  - rewrite lookup_insert_eq. split; eauto.
  - now rewrite lookup_insert_ne.
Qed.

Lemma store8_mapped (m m' : gmap Z Z) p v n : forall q,
  store8 m p v = Some m' -> mapped m' q n = mapped m q n.
Proof.
  induction n as [|n IH]; intros q H; [reflexivity|].
  simpl. rewrite (IH _ H). f_equal.
  apply bool_decide_ext. exact (store8_is_Some _ _ _ _ _ H).
Qed.

(** A store into mapped bytes does not fault. *)
Lemma store_bytes_Some bs : forall (m : gmap Z Z) p,
  mapped m p (length bs) = true -> is_Some (store_bytes m p bs).
Proof.
  induction bs as [|b bs IH]; intros m p H; [simpl; eauto|].
  simpl in H. apply mapped_S in H as [Hp Hrest].
  simpl. rewrite (store8_Some _ _ b Hp). simpl.
  apply IH. rewrite (store8_mapped _ _ _ _ _ _ (store8_Some _ _ b Hp)).
  exact Hrest.
Qed.

(** A store leaves every byte outside its window as it was. *)
Lemma store_bytes_outside bs : forall (m m' : gmap Z Z) p q,
  store_bytes m p bs = Some m' ->
  q < p \/ p + Z.of_nat (length bs) <= q ->
  m' !! q = m !! q.
Proof.
  induction bs as [|b bs IH]; intros m m' p q H Hq; simpl in H.
  - now injection H as <-.
  - destruct (store8 m p b) as [m1|] eqn:H1; [|discriminate]. simpl in H.
    rewrite (IH _ _ _ q H) by (simpl in Hq; lia).
    apply store8_inv in H1 as [_ ->].
    apply lookup_insert_ne. simpl in Hq. lia.
Qed.

(** A store puts each byte at its place in the window. *)
Lemma store_bytes_inside bs : forall (m m' : gmap Z Z) p (i : nat) b,
  store_bytes m p bs = Some m' -> bs !! i = Some b ->
  m' !! (p + Z.of_nat i) = Some (to_uint8 b).
Proof.
  induction bs as [|b0 bs IH]; intros m m' p i b H Hi; [discriminate|].
  simpl in H.
  destruct (store8 m p b0) as [m1|] eqn:H1; [|discriminate]. simpl in H.
  destruct i as [|i]; simpl in Hi.
  - injection Hi as ->. rewrite Z.add_0_r.
    rewrite (store_bytes_outside _ _ _ _ p H) by lia.
    apply store8_inv in H1 as [_ ->]. apply lookup_insert_eq.
  - replace (p + Z.of_nat (S i)) with (p + 1 + Z.of_nat i) by lia.
    exact (IH _ _ _ _ _ H Hi).
Qed.

(** Loading a window back after a store yields the bytes stored. *)
Lemma load_store_bytes bs : forall (m m' : gmap Z Z) p,
  store_bytes m p bs = Some m' ->
  load_bytes m' p (length bs) = Some (List.map to_uint8 bs).
Proof.
  induction bs as [|b bs IH]; intros m m' p H; [reflexivity|].
  pose proof (store_bytes_inside _ _ _ p 0%nat b H eq_refl) as H0.
  rewrite Z.add_0_r in H0.
  simpl in H.
  destruct (store8 m p b) as [m1|] eqn:H1; [|discriminate]. simpl in H.
  simpl. rewrite H0. simpl. rewrite (IH _ _ _ H). reflexivity.
Qed.

(** *** Byte order *)

Lemma le_split_length n : forall w, length (le_split n w) = n.
Proof. induction n as [|n IH]; intros w; simpl; [|rewrite IH]; reflexivity. Qed.

Lemma land_byte w : Z.land w 0xFF = w mod 2 ^ 8.
Proof. change 0xFF with (Z.ones 8). apply Z.land_ones. lia. Qed.

Lemma le_split_lookup n : forall w (i : nat),
  (i < n)%nat ->
  le_split n w !! i = Some (Z.land (Z.shiftr w (8 * Z.of_nat i)) 0xFF).
Proof.
  induction n as [|n IH]; intros w i Hi; [lia|].
  destruct i as [|i]; simpl le_split; simpl lookup.
  - now rewrite Z.shiftr_0_r.
  - rewrite IH by lia. rewrite Z.shiftr_shiftr by lia.
    do 3 f_equal. lia.
Qed.

Lemma le_split_uint8 n : forall w,
  List.map to_uint8 (le_split n w) = le_split n w.
Proof.
  induction n as [|n IH]; intros w; [reflexivity|].
  simpl. rewrite IH. f_equal.
  rewrite land_byte. unfold to_uint8. apply Z.mod_mod. lia.
Qed.

(** Splitting into [n] bytes and combining again keeps the low [8 n] bits. *)
Lemma le_combine_split n : forall w,
  le_combine (le_split n w) = w mod 2 ^ (8 * Z.of_nat n).
Proof.
  induction n as [|n IH]; intros w.
  - simpl. now rewrite Z.mod_1_r.
  - simpl le_split. simpl le_combine. rewrite IH.
    rewrite land_byte, Z.shiftl_mul_pow2, Z.shiftr_div_pow2 by lia.
    replace (8 * Z.of_nat (S n)) with (8 + 8 * Z.of_nat n) by lia.
    rewrite Z.pow_add_r by lia.
    rewrite Z.rem_mul_r by lia. lia.
Qed.

(** The byte taken at position [i] holds bits [8 i] to [8 i + 7] of the
    word. *)
Lemma byte_testbit w i j :
  0 <= i -> 0 <= j < 8 ->
  Z.testbit (Z.land (Z.shiftr w (8 * i)) 0xFF) j = Z.testbit w (8 * i + j).
Proof.
  intros Hi Hj. rewrite Z.land_spec, Z.shiftr_spec by lia.
  change 0xFF with (Z.ones 8). rewrite Z.ones_spec_low by lia.
  rewrite andb_true_r. f_equal. lia.
Qed.

Lemma byte_range w : 0 <= Z.land w 0xFF < 256.
Proof. rewrite land_byte. apply Z.mod_pos_bound. lia. Qed.

(** In either byte order, the word read from the representation of a 32-bit
    word is that word. *)
Lemma bytes_word_bytes o w :
  0 <= w < 2 ^ 32 -> bytes_word o (word_bytes o w) = w.
Proof.
  intros Hw.
  assert (H : le_combine (le_split 4 w) = w)
    by (rewrite le_combine_split; apply Z.mod_small; lia).
  destruct o; unfold bytes_word, word_bytes; [exact H|].
  now rewrite rev_involutive.
Qed.

Lemma word_bytes_length o w : length (word_bytes o w) = 4%nat.
Proof. destruct o; reflexivity. Qed.

Lemma word_bytes_uint8 o w :
  List.map to_uint8 (word_bytes o w) = word_bytes o w.
Proof.
  destruct o; unfold word_bytes.
  - apply le_split_uint8.
  - rewrite map_rev. f_equal. apply le_split_uint8.
Qed.

(** [load32] after [store32] at the same pointer, in either byte order. *)
Lemma load32_store32 o (m m' : gmap Z Z) p w :
  store32 o m p w = Some m' -> load32 o m' p = Some (to_uint32 w).
Proof.
  unfold store32, load32. intros H.
  apply load_store_bytes in H.
  rewrite word_bytes_length in H. rewrite H. simpl.
  rewrite word_bytes_uint8.
  f_equal. apply bytes_word_bytes. apply TranslationFacts.to_uint32_range.
Qed.

End MemoryFacts.

(** ** Facts about [flash_write32] and [flash_write8] *)

Module WriteFacts.
Import Layout Machine TranslationFacts MemoryFacts.

(** When every flash byte is backed, the word at an aligned flash address is
    mapped. *)
Lemma flash_backed_word cfg st a :
  flash_backed cfg st -> is_flash_addr a -> a mod 4 = 0 ->
  mapped (mem st) (FLASH_PTR cfg st a) 4 = true.
Proof.
  intros Hb Ha Hal. apply mapped_spec. intros i Hi.
  assert (Hai : is_flash_addr (a + i)).
  { unfold is_flash_addr, FLASH_ORIGIN, FLASH_TOTAL_SIZE in *.
    apply Z.mod_divide in Hal as [k ->]; lia. }
  rewrite <- FLASH_PTR_add by assumption. now apply Hb.
Qed.

Lemma flash_backed_byte cfg st a :
  flash_backed cfg st -> is_flash_addr a ->
  mapped (mem st) (FLASH_PTR cfg st a) 1 = true.
Proof.
  intros Hb Ha. apply mapped_S. split; [now apply Hb | reflexivity].
Qed.

(** [flash_write8] into a mapped byte returns, with memory updated at the
    translated pointer and the global untouched. *)
Lemma flash_write8_Some cfg st a b :
  mapped (mem st) (FLASH_PTR cfg st (to_uint32 a)) 1 = true ->
  flash_write8 cfg a b st =
  Some (Machine (emulator_flash_base st)
          (<[FLASH_PTR cfg st (to_uint32 a) := to_uint8 b]> (mem st))).
Proof.
  intros H. apply mapped_S in H as [H _].
  unfold flash_write8. cbv zeta. rewrite (store8_Some _ _ _ H).
  now rewrite to_uint8_idem.
Qed.

(** [flash_write32] into four mapped bytes returns, with the global
    untouched. *)
Lemma flash_write32_Some cfg st a w :
  mapped (mem st) (FLASH_PTR cfg st (to_uint32 a)) 4 = true ->
  exists m',
    store32 (target_order cfg) (mem st) (FLASH_PTR cfg st (to_uint32 a))
      (to_uint32 w) = Some m' /\
    flash_write32 cfg a w st = Some (Machine (emulator_flash_base st) m').
Proof.
  intros H. unfold flash_write32, store32. cbv zeta.
  rewrite !to_uint32_idem.
  destruct (store_bytes_Some
              (word_bytes (target_order cfg) (to_uint32 w))
              (mem st) (FLASH_PTR cfg st (to_uint32 a))) as [m' Hm'].
  { now rewrite word_bytes_length. }
  exists m'. rewrite Hm'. split; reflexivity.
Qed.

(** The translation of an address does not depend on the memory contents. *)
Lemma FLASH_PTR_mem cfg b (m m' : gmap Z Z) x :
  FLASH_PTR cfg (Machine b m') x = FLASH_PTR cfg (Machine b m) x.
Proof. reflexivity. Qed.

(** Reading back after [flash_write32] yields the word written, whatever the
    byte order of the target. *)
Lemma flash_write32_read32 cfg st st' a w :
  flash_write32 cfg a w st = Some st' ->
  flash_read32 cfg a st' = Some (to_uint32 w).
Proof.
  unfold flash_write32, flash_read32. cbv zeta. intros H.
  destruct (store32 _ _ _ _) as [m'|] eqn:Hm'; [|discriminate].
  cbn [mbind option_bind] in H. injection H as <-. cbn [mem].
  rewrite (FLASH_PTR_mem cfg _ (mem st) m'). destruct st as [b m].
  cbn [mem emulator_flash_base] in *.
  rewrite (load32_store32 _ _ _ _ _ Hm').
  now rewrite to_uint32_idem.
Qed.

(** [flash_write32] leaves every byte of memory outside the four-byte window
    at the translated pointer as it was; no alignment is needed for this. *)
Lemma flash_write32_outside cfg st st' a w p :
  flash_write32 cfg a w st = Some st' ->
  p < FLASH_PTR cfg st (to_uint32 a) \/
  FLASH_PTR cfg st (to_uint32 a) + 4 <= p ->
  mem st' !! p = mem st !! p.
Proof.
  unfold flash_write32. cbv zeta. intros H Hp.
  destruct (store32 _ _ _ _) as [m'|] eqn:Hm'; [|discriminate].
  cbn [mbind option_bind] in H. injection H as <-. cbn [mem].
  unfold store32 in Hm'. apply (store_bytes_outside _ _ _ _ _ Hm').
  now rewrite word_bytes_length.
Qed.

(** C5: for a word-aligned flash address [a] whose four bytes are mapped and
    a 32-bit word [w], on a little-endian target [flash_write32(a, w)]
    returns, a 32-bit read at [a] right after it yields [w], and for [i] from
    0 to 3 the byte at [a + i] holds bits [8 i] to [8 i + 7] of [w]. *)
Theorem flash_write32_read_back (cfg : config) (st : machine) (a w : Z) :
  target_order cfg = LittleEndian ->
  is_flash_addr a -> a mod 4 = 0 -> 0 <= w < 2 ^ 32 ->
  mapped (mem st) (FLASH_PTR cfg st a) 4 = true ->
  exists st',
    flash_write32 cfg a w st = Some st' /\
    flash_read32 cfg a st' = Some w /\
    forall i, 0 <= i < 4 ->
      exists b,
        flash_read8 cfg (a + i) st' = Some b /\
        0 <= b < 256 /\
        forall j, 0 <= j < 8 -> Z.testbit b j = Z.testbit w (8 * i + j).
Proof.
  intros Hle Ha Hal Hw Hmap.
  pose proof (to_uint32_small _ (flash_addr_uint32 _ Ha)) as Ha32.
  destruct (flash_write32_Some cfg st a w) as (m' & Hm' & Hst').
  { now rewrite Ha32. }
  exists (Machine (emulator_flash_base st) m'). split; [exact Hst'|]. split.
  { rewrite (flash_write32_read32 _ _ _ _ _ Hst').
    now rewrite to_uint32_small. }
  intros i Hi.
  assert (Hai : is_flash_addr (a + i)).
  { unfold is_flash_addr, FLASH_ORIGIN, FLASH_TOTAL_SIZE in *.
    apply Z.mod_divide in Hal as [k ->]; lia. }
  exists (Z.land (Z.shiftr w (8 * i)) 0xFF).
  split; [|split].
  - unfold flash_read8. cbn [mem].
    rewrite (to_uint32_small _ (flash_addr_uint32 _ Hai)).
    rewrite (FLASH_PTR_mem cfg _ (mem st) m').
    replace (Machine (emulator_flash_base st) (mem st)) with st
      by (now destruct st).
    rewrite FLASH_PTR_add by assumption.
    unfold store32 in Hm'. rewrite Hle, Ha32, to_uint32_idem in Hm'.
    rewrite (to_uint32_small w Hw) in Hm'.
    replace i with (Z.of_nat (Z.to_nat i)) at 1 by lia.
    rewrite (store_bytes_inside _ _ _ _ (Z.to_nat i)
               (Z.land (Z.shiftr w (8 * i)) 0xFF) Hm').
    + f_equal. apply to_uint8_small. pose proof (byte_range (Z.shiftr w (8 * i))).
      lia.
    + unfold word_bytes. rewrite le_split_lookup by lia.
      do 4 f_equal. lia.
  - apply byte_range.
  - intros j Hj. apply byte_testbit; lia.
Qed.

(** Writing [0xDEADBEEF] at [0x08000010] in the emulated little-endian
    build. *)
Lemma flash_write32_read_back_witness :
  exists st',
    flash_write32 (Config true LittleEndian) 0x08000010 0xDEADBEEF
      emulated_example = Some st' /\
    flash_read32 (Config true LittleEndian) 0x08000010 st' = Some 0xDEADBEEF /\
    forall i, 0 <= i < 4 ->
      exists b,
        flash_read8 (Config true LittleEndian) (0x08000010 + i) st' = Some b /\
        0 <= b < 256 /\
        forall j, 0 <= j < 8 ->
          Z.testbit b j = Z.testbit 0xDEADBEEF (8 * i + j).
Proof.
  apply (flash_write32_read_back (Config true LittleEndian) emulated_example
           0x08000010 0xDEADBEEF).
  - reflexivity.
  - unfold is_flash_addr, FLASH_ORIGIN, FLASH_TOTAL_SIZE. lia.
  - reflexivity.
  - lia.
  - vm_compute. reflexivity.
Defined.

(** On a big-endian target the same store puts the most significant byte at
    [a]: the byte layout of C5 is that of a little-endian target, while the
    read-back of the word ([flash_write32_read32]) holds on both. *)
Lemma flash_write32_big_endian_example :
  (st' ← flash_write32 (Config true BigEndian) 0x08000010 0xDEADBEEF
           emulated_example;
   flash_read8 (Config true BigEndian) 0x08000010 st') = Some 0xDE.
Proof. vm_compute. reflexivity. Qed.

(** A store to a byte that is not mapped faults. *)
Lemma flash_write8_unmapped_example :
  flash_write8 (Config true LittleEndian) 0x08000015 0x12 emulated_example
  = None.
Proof. vm_compute. reflexivity. Qed.

(** C6: for a flash address [a] whose byte is mapped and a byte [b],
    [flash_write8(a, b)] returns and changes only the byte at [a], which now
    holds [b]: every other byte of memory, and so the byte at every other
    address, among them [a - 1] and [a + 1], reads as before, and the global
    [emulator_flash_base] is untouched. *)
Theorem flash_write8_frame (cfg : config) (st : machine) (a b : Z) :
  is_flash_addr a -> 0 <= b < 256 ->
  mapped (mem st) (FLASH_PTR cfg st a) 1 = true ->
  exists st',
    flash_write8 cfg a b st = Some st' /\
    emulator_flash_base st' = emulator_flash_base st /\
    flash_read8 cfg a st' = Some b /\
    (forall p, p <> FLASH_PTR cfg st a -> mem st' !! p = mem st !! p) /\
    (forall x, to_uint32 x <> a ->
       flash_read8 cfg x st' = flash_read8 cfg x st) /\
    flash_read8 cfg (a - 1) st' = flash_read8 cfg (a - 1) st /\
    flash_read8 cfg (a + 1) st' = flash_read8 cfg (a + 1) st.
Proof.
  intros Ha Hb Hmap.
  pose proof (flash_addr_uint32 _ Ha) as Ha32.
  pose proof (to_uint32_small _ Ha32) as Hau.
  pose proof (flash_write8_Some cfg st a b) as Hw.
  rewrite Hau in Hw. specialize (Hw Hmap).
  rewrite (to_uint8_small b) in Hw by lia.
  eexists. split; [exact Hw|]. cbn [emulator_flash_base mem].
  assert (Hother : forall x, to_uint32 x <> a ->
            flash_read8 cfg x
              (Machine (emulator_flash_base st)
                 (<[FLASH_PTR cfg st a := b]> (mem st))) =
            flash_read8 cfg x st).
  { intros x Hx. unfold flash_read8. cbn [mem].
    rewrite (FLASH_PTR_mem cfg _ (mem st)).
    replace (Machine (emulator_flash_base st) (mem st)) with st
      by (now destruct st).
    apply lookup_insert_ne. intros Heq. apply Hx. symmetry.
    apply (FLASH_PTR_inj cfg st); [exact Ha32 | apply to_uint32_range | exact Heq]. }
  split_and!.
  - reflexivity.
  - unfold flash_read8. cbn [mem]. rewrite Hau.
    rewrite (FLASH_PTR_mem cfg _ (mem st)).
    replace (Machine (emulator_flash_base st) (mem st)) with st
      by (now destruct st).
    apply lookup_insert_eq.
  - intros p Hp. apply lookup_insert_ne. congruence.
  - exact Hother.
  - apply Hother. unfold is_flash_addr, FLASH_ORIGIN in Ha.
    rewrite to_uint32_small; lia.
  - apply Hother. unfold is_flash_addr, FLASH_ORIGIN, FLASH_TOTAL_SIZE in Ha.
    rewrite to_uint32_small; lia.
Qed.

(** Writing [0x12] at [0x08000011] on hardware leaves the neighbours at
    [0x08000010] and [0x08000012] as they were. *)
Lemma flash_write8_frame_witness :
  exists st',
    flash_write8 (Config false LittleEndian) 0x08000011 0x12 hardware_example
      = Some st' /\
    flash_read8 (Config false LittleEndian) 0x08000011 st' = Some 0x12 /\
    flash_read8 (Config false LittleEndian) 0x08000010 st' = Some 0xFF /\
    flash_read8 (Config false LittleEndian) 0x08000012 st' = Some 0xFF.
Proof.
  destruct (flash_write8_frame (Config false LittleEndian) hardware_example
              0x08000011 0x12)
    as (st' & Hw & _ & Hat & _ & _ & Hprev & Hnext).
  - unfold is_flash_addr, FLASH_ORIGIN, FLASH_TOTAL_SIZE. lia.
  - lia.
  - vm_compute. reflexivity.
  - exists st'. split_and!; [exact Hw | exact Hat | |].
    + etransitivity; [exact Hprev | vm_compute; reflexivity].
    + etransitivity; [exact Hnext | vm_compute; reflexivity].
Defined.

(** C9: for a word-aligned flash address [a] whose four bytes are mapped and
    a word [w], [flash_write32(a, w)] returns and changes only the four bytes
    at [a] to [a + 3]: every byte of memory outside the translated window,
    and so the byte at every address outside [a .. a + 3], reads as before,
    and the global [emulator_flash_base] is untouched. *)
Theorem flash_write32_frame (cfg : config) (st : machine) (a w : Z) :
  is_flash_addr a -> a mod 4 = 0 ->
  mapped (mem st) (FLASH_PTR cfg st a) 4 = true ->
  exists st',
    flash_write32 cfg a w st = Some st' /\
    emulator_flash_base st' = emulator_flash_base st /\
    (forall p, p < FLASH_PTR cfg st a \/ FLASH_PTR cfg st a + 3 < p ->
       mem st' !! p = mem st !! p) /\
    (forall x, to_uint32 x < a \/ a + 3 < to_uint32 x ->
       flash_read8 cfg x st' = flash_read8 cfg x st).
Proof.
  intros Ha Hal Hmap.
  pose proof (flash_addr_uint32 _ Ha) as Ha32.
  pose proof (to_uint32_small _ Ha32) as Hau.
  destruct (flash_write32_Some cfg st a w) as (m' & _ & Hst').
  { now rewrite Hau. }
  eexists. split; [exact Hst'|]. cbn [emulator_flash_base mem].
  assert (Hmem : forall p,
            p < FLASH_PTR cfg st a \/ FLASH_PTR cfg st a + 3 < p ->
            m' !! p = mem st !! p).
  { intros p Hp.
    apply (flash_write32_outside _ _ _ _ _ p Hst'). rewrite Hau. lia. }
  split_and!; [reflexivity | exact Hmem |].
  intros x Hx. unfold flash_read8. cbn [mem].
  rewrite (FLASH_PTR_mem cfg _ (mem st) m').
  replace (Machine (emulator_flash_base st) (mem st)) with st
    by (now destruct st).
  apply Hmem.
  destruct (FLASH_PTR_outside cfg st a (to_uint32 x) 4) as [Hl|Hr];
    try assumption; try lia.
  - unfold is_flash_addr, FLASH_ORIGIN, FLASH_TOTAL_SIZE in *.
    apply Z.mod_divide in Hal as [k ->]; lia.
  - apply to_uint32_range.
Qed.

(** Writing [0] at [0x08000010] in the emulated build leaves the byte at
    [0x08000014], right after the word, at [0x55]. *)
Lemma flash_write32_frame_witness :
  exists st',
    flash_write32 (Config true LittleEndian) 0x08000010 0 emulated_example
      = Some st' /\
    flash_read8 (Config true LittleEndian) 0x08000014 st' = Some 0x55.
Proof.
  destruct (flash_write32_frame (Config true LittleEndian) emulated_example
              0x08000010 0)
    as (st' & Hw & _ & _ & Hout).
  - unfold is_flash_addr, FLASH_ORIGIN, FLASH_TOTAL_SIZE. lia.
  - reflexivity.
  - vm_compute. reflexivity.
  - exists st'. split; [exact Hw|].
    etransitivity; [apply Hout | vm_compute; reflexivity].
    right. vm_compute. reflexivity.
Defined.

End WriteFacts.

(** ** Further facts about address translation *)

Module TranslationMore.
Import Layout Machine TranslationFacts.

(** X1: in either build, [FLASH_PTR] sends distinct [uint32_t] addresses to
    distinct pointers, inside the flash or not: two addresses never alias. *)
Theorem FLASH_PTR_no_alias (cfg : config) (st : machine) (x y : Z) :
  0 <= x < 2 ^ 32 -> 0 <= y < 2 ^ 32 -> x <> y ->
  FLASH_PTR cfg st x <> FLASH_PTR cfg st y.
Proof.
  intros Hx Hy Hne Heq. apply Hne. exact (FLASH_PTR_inj cfg st x y Hx Hy Heq).
Qed.

(** The last address below the flash and the first flash address, one apart,
    are translated to different pointers of the emulated buffer. *)
Lemma FLASH_PTR_no_alias_witness :
  FLASH_PTR (Config true LittleEndian) emulated_example 0x07FFFFFF <>
  FLASH_PTR (Config true LittleEndian) emulated_example 0x08000000.
Proof.
  apply (FLASH_PTR_no_alias (Config true LittleEndian) emulated_example
           0x07FFFFFF 0x08000000); lia.
Defined.

(** X2: in the emulated build, a [uint32_t] address is translated to a
    pointer inside the buffer of [FLASH_TOTAL_SIZE] bytes at
    [emulator_flash_base] exactly when it is a flash address.  An address
    below [FLASH_ORIGIN] does not land before the buffer: the unsigned
    subtraction wraps, and the pointer is [0xF8000000] bytes or more past the
    base. *)
Theorem FLASH_PTR_in_buffer (o : byte_order) (st : machine) (x : Z) :
  0 <= x < 2 ^ 32 ->
  let p := FLASH_PTR (Config true o) st x in
  let base := emulator_flash_base st in
  (base <= p < base + FLASH_TOTAL_SIZE <-> is_flash_addr x) /\
  (x < FLASH_ORIGIN -> p = base + x + 0xF8000000) /\
  (FLASH_ORIGIN <= x -> p = base + (x - FLASH_ORIGIN)).
Proof.
  intros Hx p base. subst p base. unfold FLASH_PTR. cbn [EMULATOR].
  unfold is_flash_addr.
  destruct (offset_cases x Hx) as [[Hge ->]|[Hlt ->]];
    unfold FLASH_ORIGIN, FLASH_TOTAL_SIZE in *; lia.
Qed.

(** The address [0x07FFFFFF], one below the flash, is translated to the byte
    [0xFFFFFFFF] past the base, outside the buffer. *)
Lemma FLASH_PTR_in_buffer_witness :
  FLASH_PTR (Config true LittleEndian) emulated_example 0x07FFFFFF
  = 0x7000 + 0xFFFFFFFF.
Proof.
  destruct (FLASH_PTR_in_buffer LittleEndian emulated_example 0x07FFFFFF)
    as (_ & Hbelow & _); [lia|].
  rewrite Hbelow by (unfold FLASH_ORIGIN; lia). reflexivity.
Defined.

(** X3: in either build, translation keeps the distance between two flash
    addresses: the pointers of [x] and [y] are [y - x] apart, so pointer
    arithmetic from a translated region start stays in step with address
    arithmetic. *)
Theorem FLASH_PTR_distance (cfg : config) (st : machine) (x y : Z) :
  is_flash_addr x -> is_flash_addr y ->
  FLASH_PTR cfg st y - FLASH_PTR cfg st x = y - x.
Proof.
  intros Hx Hy.
  replace y with (x + (y - x)) at 1 by lia.
  rewrite FLASH_PTR_add; [lia | exact Hx |].
  now replace (x + (y - x)) with y by lia.
Qed.

(** The first and the last flash byte are [0xFFFFF] apart after translation
    into the emulated buffer. *)
Lemma FLASH_PTR_distance_witness :
  FLASH_PTR (Config true LittleEndian) emulated_example 0x080FFFFF -
  FLASH_PTR (Config true LittleEndian) emulated_example 0x08000000
  = 0xFFFFF.
Proof.
  apply (FLASH_PTR_distance (Config true LittleEndian) emulated_example
           0x08000000 0x080FFFFF);
    unfold is_flash_addr, FLASH_ORIGIN, FLASH_TOTAL_SIZE; lia.
Defined.

End TranslationMore.

(** ** Further facts about [flash_write32] and [flash_write8]

    Memory is plain byte memory here, as the emulated buffer is: a store
    replaces the byte it reaches.  How the cells of a flash device take a
    programmed value is the device's matter, outside the header. *)

Module WriteMore.
Import Layout Machine TranslationFacts MemoryFacts WriteFacts.

Lemma store8_uint8 (m : gmap Z Z) p v : store8 m p (to_uint8 v) = store8 m p v.
Proof. unfold store8. now rewrite to_uint8_idem. Qed.

Lemma machine_eta st : Machine (emulator_flash_base st) (mem st) = st.
Proof. now destruct st. Qed.

(** [flash_write8] as one byte store at the translated pointer. *)
Lemma flash_write8_store8 cfg a b st :
  flash_write8 cfg a b st =
  (m' ← store8 (mem st) (FLASH_PTR cfg st (to_uint32 a)) b;
   Some (Machine (emulator_flash_base st) m')).
Proof. unfold flash_write8. cbv zeta. now rewrite store8_uint8. Qed.

(** The same, with the pointer translated in a machine that differs in its
    memory only. *)
Lemma flash_write8_at cfg base (m m' : gmap Z Z) a b :
  flash_write8 cfg a b (Machine base m') =
  (m'' ← store8 m' (FLASH_PTR cfg (Machine base m) (to_uint32 a)) b;
   Some (Machine base m'')).
Proof. exact (flash_write8_store8 cfg a b (Machine base m')). Qed.


(** A store of consecutive bytes returns exactly when all of them are
    mapped. *)
Lemma store_bytes_is_Some bs : forall (m : gmap Z Z) p,
  is_Some (store_bytes m p bs) <-> mapped m p (length bs) = true.
Proof.
  induction bs as [|b bs IH]; intros m p.
  - simpl. split; eauto.
  - split; [|apply store_bytes_Some].
    intros [m' H]. simpl in H.
    destruct (store8 m p b) as [m1|] eqn:H1; [|discriminate].
    cbn [mbind option_bind] in H.
    cbn [length]. apply mapped_S. split.
    + apply store8_inv in H1. tauto.
    + rewrite <- (store8_mapped _ _ _ _ _ _ H1). apply IH. eauto.
Qed.

(** Different [uint32_t] addresses are translated to different pointers. *)
Lemma FLASH_PTR_no_alias_ptr cfg st a1 a2 :
  to_uint32 a1 <> to_uint32 a2 ->
  FLASH_PTR cfg st (to_uint32 a1) <> FLASH_PTR cfg st (to_uint32 a2).
Proof.
  intros Hne Heq. apply Hne.
  exact (FLASH_PTR_inj cfg st _ _ (to_uint32_range a1) (to_uint32_range a2)
           Heq).
Qed.



Lemma store8_land (m : gmap Z Z) p v :
  store8 m p (Z.land v 0xFF) = store8 m p v.
Proof. rewrite land_byte. apply store8_uint8. Qed.

(** The three addresses after an aligned flash address are flash addresses,
    and are translated to the three pointers after its pointer. *)
Lemma FLASH_PTR_word cfg st a i :
  is_flash_addr a -> a mod 4 = 0 -> 0 <= i < 4 ->
  is_flash_addr (a + i) /\
  FLASH_PTR cfg st (to_uint32 (a + i)) = FLASH_PTR cfg st a + i.
Proof.
  intros Ha Hal Hi.
  assert (Hai : is_flash_addr (a + i)).
  { unfold is_flash_addr, FLASH_ORIGIN, FLASH_TOTAL_SIZE in *.
    apply Z.mod_divide in Hal as [k ->]; lia. }
  split; [exact Hai|].
  rewrite (to_uint32_small _ (flash_addr_uint32 _ Hai)).
  now apply FLASH_PTR_add.
Qed.

(** X5: on a little-endian target, for a word-aligned flash address [a] and a
    32-bit word [w], [flash_write32(a, w)] does what the four calls
    [flash_write8(a, w)], [flash_write8(a + 1, w >> 8)],
    [flash_write8(a + 2, w >> 16)], [flash_write8(a + 3, w >> 24)] do in this
    order: both fault, or both return the same machine. *)
Theorem flash_write32_as_bytes (cfg : config) (st : machine) (a w : Z) :
  target_order cfg = LittleEndian ->
  is_flash_addr a -> a mod 4 = 0 -> 0 <= w < 2 ^ 32 ->
  flash_write32 cfg a w st =
  (st1 ← flash_write8 cfg a w st;
   st2 ← flash_write8 cfg (a + 1) (Z.shiftr w 8) st1;
   st3 ← flash_write8 cfg (a + 2) (Z.shiftr w 16) st2;
   flash_write8 cfg (a + 3) (Z.shiftr w 24) st3).
Proof.
  intros Hle Ha Hal Hw. destruct st as [base m].
  assert (Hp : forall m' i, 0 <= i < 4 ->
            FLASH_PTR cfg (Machine base m') (to_uint32 (a + i)) =
            FLASH_PTR cfg (Machine base m) a + i).
  { intros m' i Hi. rewrite (FLASH_PTR_mem cfg base m m').
    now apply FLASH_PTR_word. }
  pose proof (Hp m 0 ltac:(lia)) as Hp0. rewrite !Z.add_0_r in Hp0.
  unfold flash_write32. cbv zeta. rewrite Hp0, Hle.
  unfold store32, word_bytes. rewrite !to_uint32_idem, (to_uint32_small w Hw).
  cbn [le_split store_bytes mem emulator_flash_base].
  rewrite !Z.shiftr_shiftr by lia. cbn [Z.add Pos.add Pos.succ].
  rewrite !store8_land.
  rewrite flash_write8_store8. cbn [mem emulator_flash_base]. rewrite Hp0.
  destruct (store8 m _ w) as [m1|]; [|reflexivity].
  cbn [mbind option_bind].
  rewrite flash_write8_store8. cbn [mem emulator_flash_base].
  rewrite (Hp m1 1) by lia. rewrite store8_land.
  destruct (store8 m1 _ _) as [m2|]; [|reflexivity].
  cbn [mbind option_bind].
  rewrite flash_write8_store8. cbn [mem emulator_flash_base].
  rewrite (Hp m2 2) by lia. rewrite store8_land.
  replace (FLASH_PTR cfg (Machine base m) a + 1 + 1)
    with (FLASH_PTR cfg (Machine base m) a + 2) by lia.
  destruct (store8 m2 _ _) as [m3|]; [|reflexivity].
  cbn [mbind option_bind].
  rewrite flash_write8_store8. cbn [mem emulator_flash_base].
  rewrite (Hp m3 3) by lia. rewrite store8_land.
  replace (FLASH_PTR cfg (Machine base m) a + 2 + 1)
    with (FLASH_PTR cfg (Machine base m) a + 3) by lia.
  destruct (store8 m3 _ _) as [m4|]; reflexivity.
Qed.

(** The word [0xDEADBEEF] at [0x08000010] of the emulated buffer, stored at
    once and byte by byte. *)
Lemma flash_write32_as_bytes_witness :
  let cfg := Config true LittleEndian in
  flash_write32 cfg 0x08000010 0xDEADBEEF emulated_example =
  (st1 ← flash_write8 cfg 0x08000010 0xDEADBEEF emulated_example;
   st2 ← flash_write8 cfg (0x08000010 + 1) (Z.shiftr 0xDEADBEEF 8) st1;
   st3 ← flash_write8 cfg (0x08000010 + 2) (Z.shiftr 0xDEADBEEF 16) st2;
   flash_write8 cfg (0x08000010 + 3) (Z.shiftr 0xDEADBEEF 24) st3).
Proof.
  apply (flash_write32_as_bytes (Config true LittleEndian) emulated_example
           0x08000010 0xDEADBEEF).
  - reflexivity.
  - unfold is_flash_addr, FLASH_ORIGIN, FLASH_TOTAL_SIZE. lia.
  - reflexivity.
  - lia.
Defined.



(** X7: two [flash_write8] calls to different [uint32_t] addresses can be
    swapped: in either order both fault or both return the same machine. *)
Theorem flash_write8_commute
    (cfg : config) (st : machine) (a1 b1 a2 b2 : Z) :
  to_uint32 a1 <> to_uint32 a2 ->
  (st1 ← flash_write8 cfg a1 b1 st; flash_write8 cfg a2 b2 st1) =
  (st2 ← flash_write8 cfg a2 b2 st; flash_write8 cfg a1 b1 st2).
Proof.
  intros Hne. destruct st as [base m].
  pose proof (FLASH_PTR_no_alias_ptr cfg (Machine base m) a1 a2 Hne) as Hpne.
  rewrite !(flash_write8_at cfg base m m).
  set (p1 := FLASH_PTR cfg (Machine base m) (to_uint32 a1)) in *.
  set (p2 := FLASH_PTR cfg (Machine base m) (to_uint32 a2)) in *.
  unfold store8 at 1 2.
  destruct (m !! p1) as [v1|] eqn:E1, (m !! p2) as [v2|] eqn:E2;
    cbn [mbind option_bind];
    rewrite ?(flash_write8_at cfg base m); fold p1 p2; unfold store8;
    rewrite ?lookup_insert_ne by congruence; rewrite ?E1, ?E2;
    cbn [mbind option_bind]; try reflexivity.
  now rewrite insert_insert_ne by congruence.
Qed.

(** The bytes at offsets [0x10] and [0x14] of the emulated buffer, stored in
    either order. *)
Lemma flash_write8_commute_witness :
  let cfg := Config true LittleEndian in
  (st1 ← flash_write8 cfg 0x08000010 0x12 emulated_example;
   flash_write8 cfg 0x08000014 0x34 st1) =
  (st2 ← flash_write8 cfg 0x08000014 0x34 emulated_example;
   flash_write8 cfg 0x08000010 0x12 st2).
Proof.
  apply (flash_write8_commute (Config true LittleEndian) emulated_example
           0x08000010 0x12 0x08000014 0x34).
  vm_compute. discriminate.
Defined.



(** Reading a flash address, with the conversion of the argument dropped. *)
Lemma flash_read8_flash cfg st x :
  is_flash_addr x -> flash_read8 cfg x st = mem st !! FLASH_PTR cfg st x.
Proof.
  intros Hx. unfold flash_read8.
  now rewrite (to_uint32_small _ (flash_addr_uint32 _ Hx)).
Qed.

(** The emulated buffer of [emulated_word] and the flash of [hardware_word]
    show the same flash. *)
Lemma same_flash_words :
  same_flash (Config true LittleEndian) emulated_word
             (Config false LittleEndian) hardware_word.
Proof.
  intros x Hx. rewrite !flash_read8_flash by assumption.
  rewrite FLASH_PTR_emulator, FLASH_PTR_hardware by assumption.
  unfold emulated_word, hardware_word, FLASH_ORIGIN. cbn [mem emulator_flash_base].
  rewrite !lookup_insert, !lookup_empty.
  repeat case_decide; try reflexivity; lia.
Defined.

(** X10: [flash_write8] does not tell two machines that show the same flash
    apart, be they an emulated and a hardware build or two emulated builds
    with the buffer at different places: for a flash address [a], the two
    calls both fault or both return, and the machines they return show the
    same flash again. *)
Theorem flash_write8_same_flash
    (cfg1 cfg2 : config) (st1 st2 : machine) (a b : Z) :
  same_flash cfg1 st1 cfg2 st2 -> is_flash_addr a ->
  same_outcome cfg1 cfg2
    (flash_write8 cfg1 a b st1) (flash_write8 cfg2 a b st2).
Proof.
  intros Hsame Ha.
  pose proof (Hsame a Ha) as Hat. rewrite !flash_read8_flash in Hat by assumption.
  pose proof (flash_addr_uint32 _ Ha) as Ha32.
  rewrite !flash_write8_store8, (to_uint32_small a Ha32).
  unfold store8. rewrite Hat.
  destruct (mem st2 !! FLASH_PTR cfg2 st2 a) as [v|]; cbn [mbind option_bind];
    [|exact I].
  intros x Hx. rewrite !flash_read8_flash by assumption. cbn [mem].
  rewrite (FLASH_PTR_mem cfg1 _ (mem st1)), (FLASH_PTR_mem cfg2 _ (mem st2)),
    !machine_eta.
  destruct (Z.eq_dec x a) as [->|Hne].
  - now rewrite !lookup_insert_eq.
  - pose proof (flash_addr_uint32 _ Hx) as Hx32.
    rewrite !lookup_insert_ne
      by (intros Heq; apply FLASH_PTR_inj in Heq; congruence).
    specialize (Hsame x Hx). now rewrite !flash_read8_flash in Hsame.
Qed.

(** Storing [0x5A] at [0x08000011] in the emulated and in the hardware
    machine: both return, and byte [0x08000011] reads the same in both. *)
Lemma flash_write8_same_flash_witness :
  same_outcome (Config true LittleEndian) (Config false LittleEndian)
    (flash_write8 (Config true LittleEndian) 0x08000011 0x5A emulated_word)
    (flash_write8 (Config false LittleEndian) 0x08000011 0x5A hardware_word).
Proof.
  apply flash_write8_same_flash.
  - exact same_flash_words.
  - unfold is_flash_addr, FLASH_ORIGIN, FLASH_TOTAL_SIZE. lia.
Defined.

(** Two machines that show the same flash have the same words mapped. *)
Lemma same_flash_mapped cfg1 cfg2 st1 st2 a :
  same_flash cfg1 st1 cfg2 st2 -> is_flash_addr a -> a mod 4 = 0 ->
  mapped (mem st1) (FLASH_PTR cfg1 st1 a) 4 =
  mapped (mem st2) (FLASH_PTR cfg2 st2 a) 4.
Proof.
  intros Hsame Ha Hal.
  assert (Hbyte : forall i, 0 <= i < 4 ->
            mem st1 !! (FLASH_PTR cfg1 st1 a + i) =
            mem st2 !! (FLASH_PTR cfg2 st2 a + i)).
  { intros i Hi.
    destruct (FLASH_PTR_word cfg1 st1 a i Ha Hal Hi) as [Hai H1].
    destruct (FLASH_PTR_word cfg2 st2 a i Ha Hal Hi) as [_ H2].
    rewrite <- H1, <- H2. apply (Hsame _ Hai). }
  apply eq_true_iff_eq. rewrite !mapped_spec.
  split; intros H i Hi; specialize (H i Hi);
    [rewrite <- Hbyte by exact Hi | rewrite Hbyte by exact Hi]; exact H.
Qed.

(** X11: [flash_write32] does not tell two machines that show the same flash
    apart either, when the two targets have the same byte order: for a
    word-aligned flash address [a], the two calls both fault or both return,
    and the machines they return show the same flash again. *)
Theorem flash_write32_same_flash
    (cfg1 cfg2 : config) (st1 st2 : machine) (a w : Z) :
  target_order cfg1 = target_order cfg2 ->
  same_flash cfg1 st1 cfg2 st2 -> is_flash_addr a -> a mod 4 = 0 ->
  same_outcome cfg1 cfg2
    (flash_write32 cfg1 a w st1) (flash_write32 cfg2 a w st2).
Proof.
  intros Hord Hsame Ha Hal.
  pose proof (flash_addr_uint32 _ Ha) as Ha32.
  pose proof (same_flash_mapped _ _ _ _ a Hsame Ha Hal) as Hmap.
  assert (Hout : forall cfg st x,
            is_flash_addr x -> x < a \/ a + 4 <= x ->
            FLASH_PTR cfg st x < FLASH_PTR cfg st a \/
            FLASH_PTR cfg st a + Z.of_nat 4 <= FLASH_PTR cfg st x).
  { intros cfg st x Hx Hor.
    apply (FLASH_PTR_outside cfg st a x 4); auto using flash_addr_uint32;
      [lia|].
    unfold is_flash_addr, FLASH_ORIGIN, FLASH_TOTAL_SIZE in *.
    apply Z.mod_divide in Hal as [k ->]; lia. }
  set (bs := word_bytes (target_order cfg1) (to_uint32 w)).
  assert (Hlen : length bs = 4%nat) by apply word_bytes_length.
  assert (Hw1 : flash_write32 cfg1 a w st1 =
                (m' ← store_bytes (mem st1) (FLASH_PTR cfg1 st1 a) bs;
                 Some (Machine (emulator_flash_base st1) m'))).
  { unfold flash_write32, store32. cbv zeta.
    now rewrite to_uint32_idem, (to_uint32_small a Ha32). }
  assert (Hw2 : flash_write32 cfg2 a w st2 =
                (m' ← store_bytes (mem st2) (FLASH_PTR cfg2 st2 a) bs;
                 Some (Machine (emulator_flash_base st2) m'))).
  { unfold flash_write32, store32. cbv zeta.
    now rewrite to_uint32_idem, (to_uint32_small a Ha32), <- Hord. }
  rewrite Hw1, Hw2. clear Hw1 Hw2.
  pose proof (store_bytes_is_Some bs (mem st1) (FLASH_PTR cfg1 st1 a)) as H1.
  pose proof (store_bytes_is_Some bs (mem st2) (FLASH_PTR cfg2 st2 a)) as H2.
  rewrite Hlen in H1, H2. rewrite Hmap in H1.
  destruct (store_bytes (mem st1) _ bs) as [m1|] eqn:E1,
           (store_bytes (mem st2) _ bs) as [m2|] eqn:E2;
    cbn [mbind option_bind same_outcome].
  - intros x Hx. rewrite !flash_read8_flash by assumption. cbn [mem].
    rewrite (FLASH_PTR_mem cfg1 _ (mem st1)), (FLASH_PTR_mem cfg2 _ (mem st2)),
      !machine_eta.
    destruct (Z_lt_ge_dec x a) as [Hlo|Hge];
      [|destruct (Z_lt_ge_dec x (a + 4)) as [Hin|Hhi]].
    + rewrite (store_bytes_outside _ _ _ _ _ E1),
        (store_bytes_outside _ _ _ _ _ E2)
        by (rewrite Hlen; apply Hout; [exact Hx | lia]).
      specialize (Hsame x Hx). now rewrite !flash_read8_flash in Hsame.
    + remember (Z.to_nat (x - a)) as i eqn:Hi.
      assert (Hxi : x = a + Z.of_nat i) by lia. subst x.
      destruct (lookup_lt_is_Some_2 bs i) as [v Hv]; [lia|].
      rewrite !FLASH_PTR_add by assumption.
      rewrite (store_bytes_inside _ _ _ _ _ _ E1 Hv),
        (store_bytes_inside _ _ _ _ _ _ E2 Hv). reflexivity.
    + rewrite (store_bytes_outside _ _ _ _ _ E1),
        (store_bytes_outside _ _ _ _ _ E2)
        by (rewrite Hlen; apply Hout; [exact Hx | lia]).
      specialize (Hsame x Hx). now rewrite !flash_read8_flash in Hsame.
  - destruct H2 as [_ H2]. destruct H1 as [H1 _].
    specialize (H2 (H1 ltac:(eauto))). destruct H2 as [? ?]. discriminate.
  - destruct H2 as [H2 _]. destruct H1 as [_ H1].
    specialize (H1 (H2 ltac:(eauto))). destruct H1 as [? ?]. discriminate.
  - exact I.
Qed.

(** Storing [0xDEADBEEF] at [0x08000010] in the emulated and in the hardware
    machine. *)
Lemma flash_write32_same_flash_witness :
  same_outcome (Config true LittleEndian) (Config false LittleEndian)
    (flash_write32 (Config true LittleEndian) 0x08000010 0xDEADBEEF
       emulated_word)
    (flash_write32 (Config false LittleEndian) 0x08000010 0xDEADBEEF
       hardware_word).
Proof.
  apply flash_write32_same_flash.
  - reflexivity.
  - exact same_flash_words.
  - unfold is_flash_addr, FLASH_ORIGIN, FLASH_TOTAL_SIZE. lia.
  - reflexivity.
Defined.

End WriteMore.
